(** * MeshFunction: values attached to the entities of one dimension of a mesh

    Shallow embedding of [dolfin::MeshFunction<T>]
    (src/kernel/mesh/dolfin/MeshFunction.h).

    - A [uint] is only stored and compared ([<], [==]) by this class, no
      arithmetic is done on it, so it is modelled by [nat].
    - A [const Mesh*] is an optional address; the meshes themselves live in
      a heap that the class only reads.
    - [T* _values] is [None] for the null pointer and [Some buf] for an
      array obtained from [new T[size]].
    - Member functions that change the object return the new object;
      functions that can stop the program return a [result]. *)

From stdpp Require Import base option list.
From Stdlib Require Import ZArith Lia.

(** ** Collaborators *)

Abbreviation uint := nat (only parsing).

(** Address of a [Mesh] object; [&entity.mesh() == _mesh] compares these. *)
Abbreviation addr := nat (only parsing).

(** Modelled from the spec: class [Mesh] (dolfin/Mesh.h) is not among the
    sources.  The class uses one member, [size(dim)], the number of
    entities of topological dimension [dim]. *)
Record Mesh := { Mesh_size : uint → uint }.

(** Modelled from the spec: class [MeshEntity] (dolfin/MeshEntity.h) is not
    among the sources.  The class uses [mesh()] (of which the address is
    taken), [dim()] and [index()]. *)
Record MeshEntity := {
  entity_mesh : addr;
  entity_dim : uint;
  entity_index : uint
}.

(** ** Outcomes *)

(** Which precondition stopped the program. *)
Inductive fatal : Set :=
| NoMeshBound          (* if ( !_mesh ) dolfin_error(...) *)
| UseBeforeInit        (* dolfin_assert(_values) *)
| EntityMeshMismatch   (* dolfin_assert(&entity.mesh() == _mesh) *)
| DimensionMismatch    (* dolfin_assert(entity.dim() == _dim) *)
| IndexOutOfRange.     (* dolfin_assert(... < _size) *)

(** [Undefined] is an access outside the array, which C++ gives no
    meaning; it is shown unreachable on objects built by the class. *)
Inductive result (A : Type) : Type :=
| Ok (a : A)
| Fatal (e : fatal)
| Undefined.

Arguments Ok {A} a.
Arguments Fatal {A} e.
Arguments Undefined {A}.

#[global] Instance result_ret : MRet result := λ A, @Ok A.

#[global] Instance result_bind : MBind result := λ A B k r,
  match r with
  | Ok a => k a
  | Fatal e => Fatal e
  | Undefined => Undefined
  end.

(** Modelled from the spec: the macro [dolfin_assert] (dolfin log headers)
    is not among the sources.  A failed assertion is a fatal contract
    violation: the program stops there. *)
Definition dolfin_assert (c : bool) (e : fatal) : result unit :=
  if c then Ok tt else Fatal e.

(** Modelled from the spec: the macro [dolfin_error] is not among the
    sources.  It stops the program. *)
Definition dolfin_error {A} (e : fatal) : result A := Fatal e.

(** ** The class *)

Section MeshFunction.

Context {T : Type}.

(** The meshes, by address. *)
Variable heap : addr → Mesh.

Record MeshFunction := {
  _values : option (list T);
  _mesh : option addr;
  _dim : uint;
  _size : uint
}.

(** [new T[size]]: an array of [size] default-initialised elements.  What
    the elements are (the default-constructed value of a class type,
    whatever the memory holds for a primitive type) is given by [fill]. *)
Definition new_array (fill : uint → T) (size : uint) : list T :=
  fill <$> seq 0 size.

(** [_values[i]] as an rvalue. *)
Definition array_get (buf : list T) (i : uint) : result T :=
  match buf !! i with
  | Some x => Ok x
  | None => Undefined
  end.

(** [_values[i] = x]. *)
Definition array_set (buf : list T) (i : uint) (x : T) : result (list T) :=
  if decide (i < length buf) then Ok (<[i := x]> buf) else Undefined.

(** [MeshFunction()] *)
Definition MeshFunction_empty : MeshFunction :=
  {| _values := None; _mesh := None; _dim := 0; _size := 0 |}.

(** [MeshFunction(const Mesh& mesh)] *)
Definition MeshFunction_on (mesh : addr) : MeshFunction :=
  {| _values := None; _mesh := Some mesh; _dim := 0; _size := 0 |}.

(** [mesh()] *)
Definition mesh (f : MeshFunction) : result addr :=
  match _mesh f with
  | Some m => Ok m
  | None => Fatal NoMeshBound
  end.

(** [dim()] *)
Definition dim (f : MeshFunction) : uint := _dim f.

(** [size()] *)
Definition size (f : MeshFunction) : uint := _size f.

(** [values()] *)
Definition values (f : MeshFunction) : option (list T) := _values f.

(** [init(const Mesh& mesh, uint dim, uint size)].  The old array, if any,
    is deleted and a new one takes its place. *)
Definition init_mesh_dim_size (fill : uint → T) (f : MeshFunction)
    (mesh : addr) (dim size : uint) : MeshFunction :=
  {| _mesh := Some mesh;
     _dim := dim;
     _size := size;
     _values := Some (new_array fill size) |}.

(** [init(const Mesh& mesh, uint dim)] *)
Definition init_mesh_dim (fill : uint → T) (f : MeshFunction)
    (mesh : addr) (dim : uint) : MeshFunction :=
  init_mesh_dim_size fill f mesh dim (Mesh_size (heap mesh) dim).

(** [init(uint dim)] *)
Definition init_dim (fill : uint → T) (f : MeshFunction) (dim : uint)
    : result MeshFunction :=
  match _mesh f with
  | None => dolfin_error NoMeshBound
  | Some m => Ok (init_mesh_dim_size fill f m dim (Mesh_size (heap m) dim))
  end.

(** [init(uint dim, uint size)]: [size] is not used in the body. *)
Definition init_dim_size (fill : uint → T) (f : MeshFunction)
    (dim size : uint) : result MeshFunction :=
  match _mesh f with
  | None => dolfin_error NoMeshBound
  | Some m => Ok (init_mesh_dim_size fill f m dim (Mesh_size (heap m) dim))
  end.

(** [get(const MeshEntity& entity)].  [dolfin_assert(_values)] is the
    case on the pointer. *)
Definition get (f : MeshFunction) (entity : MeshEntity) : result T :=
  match _values f with
  | None => Fatal UseBeforeInit
  | Some buf =>
      dolfin_assert (bool_decide (Some (entity_mesh entity) = _mesh f))
        EntityMeshMismatch ;;
      dolfin_assert (bool_decide (entity_dim entity = _dim f))
        DimensionMismatch ;;
      dolfin_assert (bool_decide (entity_index entity < _size f))
        IndexOutOfRange ;;
      array_get buf (entity_index entity)
  end.

(** [operator() (MeshEntity& entity)], const or not: the same assertions,
    then the reference [_values[entity.index()]], modelled by the slot's
    position in the array; [load] and [store] are the two uses of such a
    reference. *)
Definition access (f : MeshFunction) (entity : MeshEntity) : result uint :=
  match _values f with
  | None => Fatal UseBeforeInit
  | Some buf =>
      dolfin_assert (bool_decide (Some (entity_mesh entity) = _mesh f))
        EntityMeshMismatch ;;
      dolfin_assert (bool_decide (entity_dim entity = _dim f))
        DimensionMismatch ;;
      dolfin_assert (bool_decide (entity_index entity < _size f))
        IndexOutOfRange ;;
      if decide (entity_index entity < length buf)
      then Ok (entity_index entity) else Undefined
  end.

Definition load (f : MeshFunction) (r : uint) : result T :=
  match _values f with
  | Some buf => array_get buf r
  | None => Undefined
  end.

Definition store (f : MeshFunction) (r : uint) (x : T)
    : result MeshFunction :=
  match _values f with
  | Some buf =>
      buf' ← array_set buf r x;
      Ok {| _values := Some buf'; _mesh := _mesh f;
            _dim := _dim f; _size := _size f |}
  | None => Undefined
  end.

(** [set(uint index, const T& value)] *)
Definition set (f : MeshFunction) (index : uint) (value : T)
    : result MeshFunction :=
  match _values f with
  | None => Fatal UseBeforeInit
  | Some buf =>
      dolfin_assert (bool_decide (index < _size f)) IndexOutOfRange ;;
      buf' ← array_set buf index value;
      Ok {| _values := Some buf'; _mesh := _mesh f;
            _dim := _dim f; _size := _size f |}
  end.

End MeshFunction.

Arguments MeshFunction T : clear implicits.

(** ** Invariant and reachable objects *)

(** The array, when there is one, has [_size] slots. *)
Definition wf {T} (f : MeshFunction T) : Prop :=
  match _values f with
  | Some buf => length buf = _size f
  | None => True
  end.

(** [init] has been called. *)
Definition initialized {T} (f : MeshFunction T) : Prop :=
  is_Some (_values f).

(** The objects a program can build: the two constructors, then any
    sequence of member calls that return. *)
Inductive reachable {T} (heap : addr → Mesh) : MeshFunction T → Prop :=
| reach_empty : reachable heap MeshFunction_empty
| reach_on m : reachable heap (MeshFunction_on m)
| reach_init_mesh_dim_size fill f m d n :
    reachable heap f → reachable heap (init_mesh_dim_size fill f m d n)
| reach_init_mesh_dim fill f m d :
    reachable heap f → reachable heap (init_mesh_dim heap fill f m d)
| reach_init_dim fill f d f' :
    reachable heap f → init_dim heap fill f d = Ok f' → reachable heap f'
| reach_init_dim_size fill f d n f' :
    reachable heap f → init_dim_size heap fill f d n = Ok f' →
    reachable heap f'
| reach_set f i x f' :
    reachable heap f → set f i x = Ok f' → reachable heap f'
| reach_store f e r x f' :
    reachable heap f → access f e = Ok r → store f r x = Ok f' →
    reachable heap f'.

(** ** A mesh for the examples

    A triangulated strip at address 1: 7 vertices, 11 edges, 5 cells.
    Every other address holds a mesh of a single vertex. *)
Definition strip : Mesh :=
  {| Mesh_size := λ d, match d with 0 => 7 | 1 => 11 | 2 => 5 | _ => 0 end |}.

Definition point : Mesh :=
  {| Mesh_size := λ d, match d with 0 => 1 | _ => 0 end |}.

Definition demo_heap (a : addr) : Mesh :=
  if decide (a = 1) then strip else point.

(** The cell of index [i] of the strip. *)
Definition cell (i : uint) : MeshEntity :=
  {| entity_mesh := 1; entity_dim := 2; entity_index := i |}.

(** A value type whose default-constructed value is [0]. *)
Definition zeros : uint → Z := λ _, 0%Z.

(** The strip's cell function after [init(mesh, 2)]. *)
Definition cells0 : MeshFunction Z :=
  init_mesh_dim demo_heap zeros MeshFunction_empty 1 2.

(** ** Storage and programs

    The two places that touch the free store: [init], which deletes the
    old array, if any, and takes a new one, and the destructor. *)
Inductive event : Set :=
| New (n : nat)     (* new T[n] *)
| Delete.           (* delete [] _values *)

(** [if ( _values ) delete [] _values;] *)
Definition release {T} (f : MeshFunction T) : list event :=
  match _values f with
  | Some _ => [Delete]
  | None => []
  end.

(** [~MeshFunction()] *)
Definition destructor {T} (f : MeshFunction T) : list event := release f.

(** What the last three lines of [init(mesh, dim, size)] do to the free
    store. *)
Definition init_events {T} (f : MeshFunction T) (size : uint) : list event :=
  release f ++ [New size].

(** One array at a time: [replay live evs] follows the events from a state
    where the object owns an array ([live]) or not.  It is [None] when an
    array is taken while one is still owned (the old one is lost) or when
    [delete] runs with nothing owned. *)
Fixpoint replay (live : bool) (evs : list event) : option bool :=
  match evs with
  | [] => Some live
  | New _ :: evs => if live then None else replay true evs
  | Delete :: evs => if live then replay false evs else None
  end.

(** The object owns an array. *)
Definition owns_array {T} (f : MeshFunction T) : bool :=
  match _values f with
  | Some _ => true
  | None => false
  end.

(** A member call that changes the object, with its arguments. *)
Inductive call (T : Type) : Type :=
| Init_mesh_dim_size (fill : nat → T) (m : nat) (d n : nat)
| Init_mesh_dim (fill : nat → T) (m : nat) (d : nat)
| Init_dim (fill : nat → T) (d : nat)
| Init_dim_size (fill : nat → T) (d n : nat)
| Set_value (i : nat) (x : T)
| Assign (e : MeshEntity) (x : T).     (* f(e) = x *)

Arguments Init_mesh_dim_size {T}.
Arguments Init_mesh_dim {T}.
Arguments Init_dim {T}.
Arguments Init_dim_size {T}.
Arguments Set_value {T}.
Arguments Assign {T}.

(** [f(e) = x]: the reference returned by [operator()] is assigned. *)
Definition assign {T} (f : MeshFunction T) (e : MeshEntity) (x : T)
    : result (MeshFunction T) :=
  r ← access f e; store f r x.

(** One call: the object afterwards and what happened on the free store. *)
Definition step {T} (heap : addr → Mesh) (c : call T) (f : MeshFunction T)
    : result (MeshFunction T * list event) :=
  match c with
  | Init_mesh_dim_size fill m d n =>
      Ok (init_mesh_dim_size fill f m d n, init_events f n)
  | Init_mesh_dim fill m d =>
      Ok (init_mesh_dim heap fill f m d,
          init_events f (Mesh_size (heap m) d))
  | Init_dim fill d =>
      f' ← init_dim heap fill f d; Ok (f', init_events f (_size f'))
  | Init_dim_size fill d n =>
      f' ← init_dim_size heap fill f d n; Ok (f', init_events f (_size f'))
  | Set_value i x => f' ← set f i x; Ok (f', [])
  | Assign e x => f' ← assign f e x; Ok (f', [])
  end.

(** A sequence of calls on one object. *)
Fixpoint run {T} (heap : addr → Mesh) (prog : list (call T))
    (f : MeshFunction T) : result (MeshFunction T * list event) :=
  match prog with
  | [] => Ok (f, [])
  | c :: prog =>
      '(f1, evs1) ← step heap c f;
      '(f2, evs2) ← run heap prog f1;
      Ok (f2, evs1 ++ evs2)
  end.

(** The call is not the overload that takes the size from the caller. *)
Definition sized_by_mesh {T} (c : call T) : bool :=
  match c with
  | Init_mesh_dim_size _ _ _ _ => false
  | _ => true
  end.

(** The call is not one of the two overloads of [init] that take a mesh. *)
Definition keeps_mesh {T} (c : call T) : bool :=
  match c with
  | Init_mesh_dim_size _ _ _ _ | Init_mesh_dim _ _ _ => false
  | _ => true
  end.

(** The call is [set] or an assignment through [operator()]. *)
Definition writes_slot {T} (c : call T) : bool :=
  match c with
  | Set_value _ _ | Assign _ _ => true
  | _ => false
  end.

(** The array has one slot per entity of dimension [dim()] of the bound
    mesh. *)
Definition matches_mesh {T} (heap : addr → Mesh) (f : MeshFunction T)
    : Prop :=
  match _values f with
  | Some _ => ∃ m, _mesh f = Some m ∧ _size f = Mesh_size (heap m) (_dim f)
  | None => True
  end.

(** A program on the strip: bind and size, write cell 3 by index and cell 1
    through [operator()], start over with the vertices. *)
Definition demo_prog : list (call Z) :=
  [Init_mesh_dim zeros 1 2; Set_value 3 42%Z; Assign (cell 1) 7%Z;
   Init_dim zeros 0].

(** ** Basic facts *)

Lemma length_new_array {T} (fill : uint → T) n :
  length (new_array fill n) = n.
Proof. unfold new_array. by rewrite length_fmap, length_seq. Qed.

Lemma lookup_new_array {T} (fill : uint → T) n i :
  i < n → new_array fill n !! i = Some (fill i).
Proof.
  intros Hi. unfold new_array.
  rewrite list_lookup_fmap, lookup_seq_lt by done. done.
Qed.

Lemma array_set_lt {T} (buf : list T) i x :
  i < length buf → array_set buf i x = Ok (<[i := x]> buf).
Proof. intros Hi. unfold array_set. by rewrite decide_True. Qed.

Lemma array_set_Ok {T} (buf buf' : list T) i x :
  array_set buf i x = Ok buf' → i < length buf ∧ buf' = <[i := x]> buf.
Proof. unfold array_set. case_decide; naive_solver. Qed.

Section Invariant.
Context {T : Type} (heap : addr → Mesh).
Implicit Types (f : MeshFunction T) (e : MeshEntity).

Lemma wf_init_mesh_dim_size fill f m d n :
  wf (init_mesh_dim_size fill f m d n).
Proof. unfold wf; simpl. apply length_new_array. Qed.

Lemma wf_set f i x f' : wf f → set f i x = Ok f' → wf f'.
Proof.
  unfold wf, set. destruct (_values f) as [buf|]; [|done].
  intros Hlen. destruct (bool_decide (i < _size f)); simpl; [|done].
  destruct (array_set buf i x) as [buf'| |] eqn:Hset; simpl; [|done..].
  apply array_set_Ok in Hset as [_ ->]. intros [= <-]; simpl.
  by rewrite length_insert.
Qed.

Lemma wf_store f r x f' : wf f → store f r x = Ok f' → wf f'.
Proof.
  unfold wf, store. destruct (_values f) as [buf|]; [|done].
  intros Hlen.
  destruct (array_set buf r x) as [buf'| |] eqn:Hset; simpl; [|done..].
  apply array_set_Ok in Hset as [_ ->]. intros [= <-]; simpl.
  by rewrite length_insert.
Qed.

(** Every object a program can build satisfies the invariant. *)
Lemma reachable_wf f : reachable heap f → wf f.
Proof.
  induction 1 as [| |fill f m d n _ _|fill f m d _ _
                  |fill f d f' _ _ Hi|fill f d n f' _ _ Hi
                  |f i x f' _ IH Hs|f e r x f' _ IH _ Hs].
  - done.
  - done.
  - apply wf_init_mesh_dim_size.
  - apply wf_init_mesh_dim_size.
  - unfold init_dim in Hi. destruct (_mesh f); [|done].
    injection Hi as <-. apply wf_init_mesh_dim_size.
  - unfold init_dim_size in Hi. destruct (_mesh f); [|done].
    injection Hi as <-. apply wf_init_mesh_dim_size.
  - by eapply wf_set.
  - by eapply wf_store.
Qed.

(** No member call on a reachable object runs into undefined behaviour. *)
Lemma wf_get_defined f e : wf f → get f e ≠ Undefined.
Proof.
  unfold wf, get. destruct (_values f) as [buf|]; [|done].
  intros Hlen. repeat case_bool_decide; simpl; try done.
  unfold array_get.
  destruct (buf !! entity_index e) eqn:Hl; [done|].
  apply lookup_ge_None in Hl. lia.
Qed.

Lemma wf_set_defined f i x : wf f → set f i x ≠ Undefined.
Proof.
  unfold wf, set. destruct (_values f) as [buf|]; [|done].
  intros Hlen. case_bool_decide; simpl; [|done].
  rewrite array_set_lt by lia. done.
Qed.

(** An object with no mesh is the one made by [MeshFunction()]: nothing
    can be done to it before a mesh is given. *)
Lemma reachable_no_mesh f :
  reachable heap f → _mesh f = None → f = MeshFunction_empty.
Proof.
  induction 1 as [| |fill f m d n _ _|fill f m d _ _
                  |fill f d f' _ _ Hi|fill f d n f' _ _ Hi
                  |f i x f' _ IH Hs|f e r x f' _ IH _ Hs]; try done.
  - unfold init_dim in Hi. destruct (_mesh f); [|done]. by injection Hi as <-.
  - unfold init_dim_size in Hi. destruct (_mesh f); [|done].
    by injection Hi as <-.
  - intros Hm. unfold set in Hs. destruct (_values f) as [buf|] eqn:Hv; [|done].
    destruct (bool_decide _); simpl in Hs; [|done].
    destruct (array_set buf i x); simpl in Hs; [|done..].
    injection Hs as <-. simpl in Hm. by rewrite (IH Hm) in Hv.
  - intros Hm. unfold store in Hs.
    destruct (_values f) as [buf|] eqn:Hv; [|done].
    destruct (array_set buf r x); simpl in Hs; [|done..].
    injection Hs as <-. simpl in Hm. by rewrite (IH Hm) in Hv.
Qed.

(** The array is null exactly until the first [init]. *)
Lemma initialized_init_mesh_dim_size fill f m d n :
  initialized (init_mesh_dim_size fill f m d n).
Proof. by eexists. Qed.

End Invariant.

(** ** Initialisation *)

Section Init.
Context {T : Type} (heap : addr → Mesh).
Implicit Types (f g : MeshFunction T) (fill : uint → T).

(** C1 (as amended): [init(mesh, dim, size)] binds the mesh and the
    dimension and gives the function exactly the requested number of
    slots: afterwards [size()] is the requested size, and it is the
    mesh's entity count only when the caller asked for that count. *)
Theorem init_mesh_dim_size_requested fill f m d n :
  let f' := init_mesh_dim_size fill f m d n in
  size f' = n ∧ dim f' = d ∧ mesh f' = Ok m ∧
  values f' = Some (new_array fill n) ∧ length (new_array fill n) = n ∧
  (size f' = Mesh_size (heap m) d ↔ n = Mesh_size (heap m) d).
Proof.
  simpl. unfold size, dim, mesh, values; simpl.
  by rewrite length_new_array.
Qed.

(** C2: after [init(m, d)] on any function, and after [init(d)] on a
    function bound to the mesh [m], [size()] is the number of entities of
    dimension [d] of [m]. *)
Theorem init_size_is_entity_count fill f g m d (Hbound : _mesh g = Some m) :
  size (init_mesh_dim heap fill f m d) = Mesh_size (heap m) d ∧
  ∃ g', init_dim heap fill g d = Ok g' ∧ size g' = Mesh_size (heap m) d.
Proof.
  split; [done|]. unfold init_dim. rewrite Hbound. by eexists.
Qed.

(** C8: on a function bound to the mesh [m], [init(d, requestedSize)]
    returns, and the array it allocates has as many slots as [m] has
    entities of dimension [d], whatever size was requested. *)
Theorem init_dim_size_ignores_request fill g m d n (Hbound : _mesh g = Some m) :
  ∃ g' buf,
    init_dim_size heap fill g d n = Ok g' ∧
    values g' = Some buf ∧
    length buf = Mesh_size (heap m) d ∧
    size g' = Mesh_size (heap m) d ∧
    ∀ n', init_dim_size heap fill g d n' = Ok g'.
Proof.
  unfold init_dim_size. rewrite Hbound.
  eexists _, _. split; [done|]. split; [done|].
  by rewrite length_new_array.
Qed.

(** C9: on a function that has no mesh, [init(dim)] and
    [init(dim, requestedSize)] stop with the no-mesh error; no
    initialised function results. *)
Theorem init_without_mesh fill g d n (Hnone : _mesh g = None) :
  init_dim heap fill g d = Fatal NoMeshBound ∧
  init_dim_size heap fill g d n = Fatal NoMeshBound.
Proof. unfold init_dim, init_dim_size. by rewrite Hnone. Qed.

End Init.

(** C1, counterexample: the strip has 5 cells; [init(mesh, 2, 3)] leaves
    [size() == 3]. *)
Lemma init_mesh_dim_size_not_entity_count :
  3 ≠ Mesh_size (demo_heap 1) 2 ∧
  size (init_mesh_dim_size zeros MeshFunction_empty 1 2 3)
    ≠ Mesh_size (demo_heap 1) 2.
Proof. split; vm_compute; lia. Qed.

(** Witness of C2 on the strip. *)
Lemma init_size_is_entity_count_witness :
  _mesh (MeshFunction_on (T:=Z) 1) = Some 1 ∧
  size (init_mesh_dim demo_heap zeros MeshFunction_empty 1 2) = 5 ∧
  ∃ g', init_dim demo_heap zeros (MeshFunction_on 1) 2 = Ok g' ∧ size g' = 5.
Proof.
  split; [reflexivity|].
  apply (init_size_is_entity_count demo_heap zeros
           MeshFunction_empty (MeshFunction_on 1) 1 2).
  reflexivity.
Defined.

(** Witness of C8 on the strip: 3 slots are asked for, 5 are made. *)
Lemma init_dim_size_ignores_request_witness :
  _mesh (MeshFunction_on (T:=Z) 1) = Some 1 ∧
  ∃ g' buf,
    init_dim_size demo_heap zeros (MeshFunction_on 1) 2 3 = Ok g' ∧
    values g' = Some buf ∧ length buf = 5 ∧ size g' = 5 ∧
    ∀ n', init_dim_size demo_heap zeros (MeshFunction_on 1) 2 n' = Ok g'.
Proof.
  split; [reflexivity|].
  apply (init_dim_size_ignores_request demo_heap zeros
           (MeshFunction_on 1) 1 2 3).
  reflexivity.
Defined.

(** Witness of C9 on the function made by [MeshFunction()]. *)
Lemma init_without_mesh_witness :
  _mesh (MeshFunction_empty (T:=Z)) = None ∧
  init_dim demo_heap zeros MeshFunction_empty 2 = Fatal NoMeshBound ∧
  init_dim_size demo_heap zeros MeshFunction_empty 2 3 = Fatal NoMeshBound.
Proof.
  split; [reflexivity|].
  apply (init_without_mesh demo_heap zeros MeshFunction_empty 2 3).
  reflexivity.
Defined.

(** ** Access *)

Section Access.
Context {T : Type} (heap : addr → Mesh).
Implicit Types (f : MeshFunction T) (e : MeshEntity) (buf : list T).

(** [set] on an initialised function, index in range. *)
Lemma set_in_range f buf i v :
  wf f → _values f = Some buf → i < size f →
  set f i v = Ok {| _values := Some (<[i := v]> buf); _mesh := _mesh f;
                    _dim := _dim f; _size := _size f |}.
Proof.
  unfold wf, size, set. intros Hwf Hbuf Hi. rewrite Hbuf in *.
  rewrite bool_decide_eq_true_2 by done. simpl.
  rewrite array_set_lt by lia. done.
Qed.

(** [get] when the four assertions hold. *)
Lemma get_valid f buf e :
  wf f → _values f = Some buf →
  Some (entity_mesh e) = _mesh f → entity_dim e = _dim f →
  entity_index e < size f →
  ∃ x, buf !! entity_index e = Some x ∧ get f e = Ok x.
Proof.
  unfold wf, size, get. intros Hwf Hbuf Hm Hd Hi. rewrite Hbuf in *.
  rewrite !bool_decide_eq_true_2 by done. simpl.
  destruct (lookup_lt_is_Some_2 buf (entity_index e)) as [x Hx]; [lia|].
  exists x. unfold array_get. by rewrite Hx.
Qed.

(** Reading back the slot that [set] has just written. *)
Lemma get_after_set f buf e v :
  wf f → _values f = Some buf →
  Some (entity_mesh e) = _mesh f → entity_dim e = _dim f →
  entity_index e < size f →
  ∃ f', set f (entity_index e) v = Ok f' ∧ get f' e = Ok v.
Proof.
  intros Hwf Hbuf Hm Hd Hi.
  eexists. split; [by apply set_in_range|].
  unfold get, size, wf in *; simpl. rewrite Hbuf in Hwf.
  rewrite !bool_decide_eq_true_2 by done. simpl.
  unfold array_get. rewrite list_lookup_insert_eq by lia. done.
Qed.

(** C4: on an initialised function, for an entity of the bound mesh and
    the bound dimension with [index() < size()], [set(e.index(), v)]
    returns and [get(e)] then returns [v]. *)
Theorem set_get_round_trip f e v
    (Hwf : wf f) (Hinit : initialized f)
    (Hmesh : Some (entity_mesh e) = _mesh f)
    (Hdim : entity_dim e = dim f)
    (Hindex : entity_index e < size f) :
  ∃ f', set f (entity_index e) v = Ok f' ∧ get f' e = Ok v.
Proof. destruct Hinit as [buf Hbuf]. by eapply get_after_set. Qed.

(** C5: while the array is null, that is until [init] is called, [get],
    [operator()] and [set] all stop at their first assertion. *)
Theorem access_before_init f e i v (Hnull : values f = None) :
  get f e = Fatal UseBeforeInit ∧
  access f e = Fatal UseBeforeInit ∧
  set f i v = Fatal UseBeforeInit.
Proof.
  unfold values in Hnull. unfold get, access, set.
  by rewrite Hnull.
Qed.

(** C6: on an initialised function, [get(entity)] and [operator()(entity)]
    check, in this order, the entity's mesh against the bound mesh, its
    dimension against the bound dimension and its index against [size()];
    the first check that fails stops the program with the error of that
    check, and when all three hold the value stored at the entity's index
    is returned ([operator()] returns the reference to that slot). *)
Theorem get_access_validated f e
    (Hwf : wf f) (Hinit : initialized f) :
  (Some (entity_mesh e) ≠ _mesh f →
     get f e = Fatal EntityMeshMismatch ∧
     access f e = Fatal EntityMeshMismatch) ∧
  (Some (entity_mesh e) = _mesh f → entity_dim e ≠ dim f →
     get f e = Fatal DimensionMismatch ∧
     access f e = Fatal DimensionMismatch) ∧
  (Some (entity_mesh e) = _mesh f → entity_dim e = dim f →
   size f ≤ entity_index e →
     get f e = Fatal IndexOutOfRange ∧
     access f e = Fatal IndexOutOfRange) ∧
  (Some (entity_mesh e) = _mesh f → entity_dim e = dim f →
   entity_index e < size f →
     ∃ buf x, values f = Some buf ∧ buf !! entity_index e = Some x ∧
       get f e = Ok x ∧
       access f e = Ok (entity_index e) ∧
       load f (entity_index e) = Ok x).
Proof.
  destruct Hinit as [buf Hbuf].
  unfold get, access, load, values, size, dim, wf in *.
  rewrite Hbuf in *.
  repeat split; intros; try done;
    repeat case_bool_decide; simpl; try done; try lia.
  - destruct (lookup_lt_is_Some_2 buf (entity_index e)) as [x Hx]; [lia|].
    exists buf, x. repeat case_bool_decide; try done. simpl.
    unfold array_get. rewrite Hx, decide_True by lia. done.
Qed.

(** C7 (as amended): [set(index, value)] stops with the use-before-init
    error when the function is uninitialised, whatever the index; on an
    initialised function it stops with the index error when
    [index ≥ size()], and otherwise it returns, having overwritten the
    slot at [index] with [value] and nothing else. *)
Theorem set_validated f i v (Hwf : wf f) :
  (values f = None → set f i v = Fatal UseBeforeInit) ∧
  (initialized f → size f ≤ i → set f i v = Fatal IndexOutOfRange) ∧
  (∀ buf, values f = Some buf → i < size f →
     set f i v = Ok {| _values := Some (<[i := v]> buf); _mesh := _mesh f;
                       _dim := _dim f; _size := _size f |} ∧
     <[i := v]> buf !! i = Some v ∧
     ∀ j, j ≠ i → <[i := v]> buf !! j = buf !! j).
Proof.
  unfold values. split; [|split].
  - intros Hnull. unfold set. by rewrite Hnull.
  - intros [buf Hbuf] Hi. unfold set, size in *. rewrite Hbuf.
    rewrite bool_decide_eq_false_2 by lia. done.
  - intros buf Hbuf Hi. split; [by apply set_in_range|].
    unfold wf, size in *. rewrite Hbuf in Hwf. split.
    + apply list_lookup_insert_eq. lia.
    + intros j Hj. by apply list_lookup_insert_ne.
Qed.

(** C10: on an initialised function, [set(i, v)] with [i < size()]
    returns, every slot [j ≠ i] holds what it held before, and the bound
    mesh, [dim()] and [size()] are what they were. *)
Theorem set_frame f i v
    (Hwf : wf f) (Hinit : initialized f) (Hindex : i < size f) :
  ∃ f' buf buf',
    set f i v = Ok f' ∧
    values f = Some buf ∧ values f' = Some buf' ∧
    (∀ j, j ≠ i → buf' !! j = buf !! j) ∧
    (∀ j, j ≠ i → load f' j = load f j) ∧
    _mesh f' = _mesh f ∧ mesh f' = mesh f ∧
    dim f' = dim f ∧ size f' = size f.
Proof.
  destruct Hinit as [buf Hbuf].
  eexists _, buf, _. split; [by apply set_in_range|].
  unfold values, load, mesh, dim, size; simpl. rewrite Hbuf.
  repeat split.
  - intros j Hj. by apply list_lookup_insert_ne.
  - intros j Hj. unfold array_get. by rewrite list_lookup_insert_ne.
Qed.

(** C3 (as amended): on a mesh with 5 cells, after [init(mesh, cellDim)]
    ([size() == 5]) and [set(3, X)], [get] on the entity of index 3 returns
    [X]; a second [init(mesh, cellDim)] deletes that array and takes a new
    one, and [get] on the same entity then returns what the new array
    holds in slot 3.  That content is whatever [new T[size]] leaves there
    ([fill2]: the default-constructed value of a class type, for a
    primitive type whatever the memory holds, the old bytes included), so
    the value read is [X] exactly when the new slot holds [X]: it is not
    required to differ from [X]. *)
Theorem reinit_discards_values fill1 fill2 f0 m d e X
    (Hcells : Mesh_size (heap m) d = 5)
    (Hmesh : entity_mesh e = m) (Hdim : entity_dim e = d)
    (Hindex : entity_index e = 3) :
  let f1 := init_mesh_dim heap fill1 f0 m d in
  size f1 = 5 ∧
  ∃ f2, set f1 3 X = Ok f2 ∧ get f2 e = Ok X ∧
    init_events f2 (Mesh_size (heap m) d) = [Delete; New 5] ∧
    get (init_mesh_dim heap fill2 f2 m d) e = Ok (fill2 3) ∧
    (get (init_mesh_dim heap fill2 f2 m d) e = Ok X ↔ fill2 3 = X).
Proof.
  simpl. split; [done|].
  assert (Hwf : wf (init_mesh_dim heap fill1 f0 m d))
    by apply wf_init_mesh_dim_size.
  assert (Hsz : size (init_mesh_dim heap fill1 f0 m d) = 5) by done.
  destruct (get_after_set (init_mesh_dim heap fill1 f0 m d)
              (new_array fill1 (Mesh_size (heap m) d)) e X)
    as (f2 & Hset & Hget).
  - done.
  - done.
  - by rewrite Hmesh.
  - done.
  - rewrite Hsz. lia.
  - rewrite Hindex in Hset. exists f2. split; [done|]. split; [done|].
    assert (Hread : get (init_mesh_dim heap fill2 f2 m d) e = Ok (fill2 3)).
    { unfold get, init_mesh_dim; simpl.
      rewrite Hmesh, Hdim, Hindex, Hcells.
      rewrite !bool_decide_eq_true_2 by (done || lia). simpl.
      unfold array_get. rewrite lookup_new_array by lia. done. }
    split; [|split; [done|]].
    + rewrite (set_in_range _ (new_array fill1 (Mesh_size (heap m) d)))
        in Hset by (done || (rewrite Hsz; lia)).
      injection Hset as <-. by rewrite Hcells.
    + rewrite Hread. split; [by intros [= ->]|by intros ->].
Qed.

End Access.

(** ** The theorems on the strip *)

Lemma wf_cells0 : wf cells0.
Proof. reflexivity. Defined.

Lemma initialized_cells0 : initialized cells0.
Proof. exists (new_array zeros 5). reflexivity. Defined.

(** C3, counterexample: the value type default-constructs to [0] and
    [X = 0] is stored in slot 3; after the second [init(mesh, 2)], [get]
    on cell 3 returns [0] again, which is [X]. *)
Lemma reinit_reads_same_value :
  size cells0 = 5 ∧
  ∃ f2, set cells0 3 0%Z = Ok f2 ∧ get f2 (cell 3) = Ok 0%Z ∧
    get (init_mesh_dim demo_heap zeros f2 1 2) (cell 3) = Ok 0%Z.
Proof. split; [reflexivity|]. eexists. repeat split; reflexivity. Qed.

(** Witness of C3 (as amended): [X = 42] is stored, the new array holds
    zeros. *)
Lemma reinit_discards_values_witness :
  Mesh_size (demo_heap 1) 2 = 5 ∧
  size cells0 = 5 ∧
  ∃ f2, set cells0 3 42%Z = Ok f2 ∧ get f2 (cell 3) = Ok 42%Z ∧
    init_events f2 (Mesh_size (demo_heap 1) 2) = [Delete; New 5] ∧
    get (init_mesh_dim demo_heap zeros f2 1 2) (cell 3) = Ok 0%Z ∧
    (get (init_mesh_dim demo_heap zeros f2 1 2) (cell 3) = Ok 42%Z
     ↔ 0%Z = 42%Z).
Proof.
  split; [reflexivity|].
  apply (reinit_discards_values demo_heap zeros zeros MeshFunction_empty
           1 2 (cell 3) 42%Z); reflexivity.
Defined.

(** The same calls when the new array comes back with the bytes of the
    old one, as it can for a primitive value type: 42 is read again. *)
Example reinit_reads_old_bytes :
  ∃ f2, set cells0 3 42%Z = Ok f2 ∧
    get (init_mesh_dim demo_heap (λ i, default 0%Z (values f2 ≫= (.!! i)))
           f2 1 2) (cell 3) = Ok 42%Z.
Proof. eexists. split; reflexivity. Qed.

(** Witness of C4: cell 3 of the strip, value 42. *)
Lemma set_get_round_trip_witness :
  wf cells0 ∧ initialized cells0 ∧
  ∃ f', set cells0 3 42%Z = Ok f' ∧ get f' (cell 3) = Ok 42%Z.
Proof.
  split; [exact wf_cells0|]. split; [exact initialized_cells0|].
  apply (set_get_round_trip cells0 (cell 3) 42%Z
           wf_cells0 initialized_cells0).
  - reflexivity.
  - reflexivity.
  - vm_compute. lia.
Defined.

(** Witness of C5: the function made by [MeshFunction()]. *)
Lemma access_before_init_witness :
  values (MeshFunction_empty (T:=Z)) = None ∧
  get (T:=Z) MeshFunction_empty (cell 3) = Fatal UseBeforeInit ∧
  access (T:=Z) MeshFunction_empty (cell 3) = Fatal UseBeforeInit ∧
  set MeshFunction_empty 3 42%Z = Fatal UseBeforeInit.
Proof.
  split; [reflexivity|].
  apply (access_before_init MeshFunction_empty (cell 3) 3 42%Z).
  reflexivity.
Defined.

(** Witness of C6: cell 3 of the strip passes the three checks. *)
Lemma get_access_validated_witness :
  wf cells0 ∧ initialized cells0 ∧
  ∃ buf x, values cells0 = Some buf ∧ buf !! 3 = Some x ∧
    get cells0 (cell 3) = Ok x ∧
    access cells0 (cell 3) = Ok 3 ∧
    load cells0 3 = Ok x.
Proof.
  split; [exact wf_cells0|]. split; [exact initialized_cells0|].
  apply (get_access_validated cells0 (cell 3) wf_cells0 initialized_cells0).
  - reflexivity.
  - reflexivity.
  - vm_compute. lia.
Defined.

(** The failing checks of C6, one at a time and together. *)
Example get_other_mesh :
  get cells0 {| entity_mesh := 2; entity_dim := 2; entity_index := 0 |}
    = Fatal EntityMeshMismatch.
Proof. reflexivity. Qed.

Example get_other_dim :
  get cells0 {| entity_mesh := 1; entity_dim := 0; entity_index := 0 |}
    = Fatal DimensionMismatch.
Proof. reflexivity. Qed.

Example get_index_out_of_range : get cells0 (cell 5) = Fatal IndexOutOfRange.
Proof. reflexivity. Qed.

Example get_first_failure_reported :
  get cells0 {| entity_mesh := 2; entity_dim := 1; entity_index := 9 |}
    = Fatal EntityMeshMismatch.
Proof. reflexivity. Qed.

(** C7, counterexample: on the function made by [MeshFunction()],
    [size()] is 0, so index 0 is out of range, and [set(0, 7)] stops at
    the assertion on the array, not at the one on the index. *)
Lemma set_uninitialized_error :
  values (MeshFunction_empty (T:=Z)) = None ∧
  size (MeshFunction_empty (T:=Z)) ≤ 0 ∧
  set MeshFunction_empty 0 7%Z = Fatal UseBeforeInit ∧
  set MeshFunction_empty 0 7%Z ≠ Fatal IndexOutOfRange.
Proof. repeat split; [reflexivity|discriminate]. Qed.

(** Witness of C7 (as amended) on the strip. *)
Lemma set_validated_witness :
  wf cells0 ∧
  (values cells0 = None → set cells0 3 42%Z = Fatal UseBeforeInit) ∧
  (initialized cells0 → size cells0 ≤ 3 →
     set cells0 3 42%Z = Fatal IndexOutOfRange) ∧
  (∀ buf, values cells0 = Some buf → 3 < size cells0 →
     set cells0 3 42%Z
       = Ok {| _values := Some (<[3 := 42%Z]> buf); _mesh := _mesh cells0;
               _dim := _dim cells0; _size := _size cells0 |} ∧
     <[3 := 42%Z]> buf !! 3 = Some 42%Z ∧
     ∀ j, j ≠ 3 → <[3 := 42%Z]> buf !! j = buf !! j).
Proof.
  split; [exact wf_cells0|].
  apply (set_validated cells0 3 42%Z wf_cells0).
Defined.

Example set_index_out_of_range : set cells0 5 42%Z = Fatal IndexOutOfRange.
Proof. reflexivity. Qed.

Example set_in_range_strip :
  set cells0 3 42%Z
    = Ok {| _values := Some [0; 0; 0; 42; 0]%Z; _mesh := Some 1;
            _dim := 2; _size := 5 |}.
Proof. reflexivity. Qed.

(** Witness of C10: slot 3 of the strip's cell function. *)
Lemma set_frame_witness :
  wf cells0 ∧ initialized cells0 ∧ 3 < size cells0 ∧
  ∃ f' buf buf',
    set cells0 3 42%Z = Ok f' ∧
    values cells0 = Some buf ∧ values f' = Some buf' ∧
    (∀ j, j ≠ 3 → buf' !! j = buf !! j) ∧
    (∀ j, j ≠ 3 → load f' j = load cells0 j) ∧
    _mesh f' = _mesh cells0 ∧ mesh f' = mesh cells0 ∧
    dim f' = dim cells0 ∧ size f' = size cells0.
Proof.
  assert (H : 3 < size cells0) by (vm_compute; lia).
  split; [exact wf_cells0|]. split; [exact initialized_cells0|].
  split; [exact H|].
  apply (set_frame cells0 3 42%Z wf_cells0 initialized_cells0 H).
Defined.

(** The strip's cell function is one a program can build. *)
Lemma reachable_cells0 : reachable demo_heap cells0.
Proof. apply reach_init_mesh_dim, reach_empty. Qed.

(** ** Calls that return *)

Section Returns.
Context {T : Type} (heap : addr → Mesh).
Implicit Types (f : MeshFunction T) (e : MeshEntity) (buf : list T).

Lemma set_Ok f i x f' :
  set f i x = Ok f' →
  ∃ buf, _values f = Some buf ∧ i < _size f ∧ i < length buf ∧
    f' = {| _values := Some (<[i := x]> buf); _mesh := _mesh f;
            _dim := _dim f; _size := _size f |}.
Proof.
  unfold set. destruct (_values f) as [buf|]; [|done].
  case_bool_decide; simpl; [|done].
  destruct (array_set buf i x) as [buf'| |] eqn:Hset; simpl; [|done..].
  apply array_set_Ok in Hset as [? ->]. intros [= <-]. by exists buf.
Qed.

Lemma store_Ok f r x f' :
  store f r x = Ok f' →
  ∃ buf, _values f = Some buf ∧ r < length buf ∧
    f' = {| _values := Some (<[r := x]> buf); _mesh := _mesh f;
            _dim := _dim f; _size := _size f |}.
Proof.
  unfold store. destruct (_values f) as [buf|]; [|done].
  destruct (array_set buf r x) as [buf'| |] eqn:Hset; simpl; [|done..].
  apply array_set_Ok in Hset as [? ->]. intros [= <-]. by exists buf.
Qed.

Lemma access_Ok f e r :
  access f e = Ok r →
  ∃ buf, _values f = Some buf ∧ Some (entity_mesh e) = _mesh f ∧
    entity_dim e = _dim f ∧ entity_index e < _size f ∧
    entity_index e < length buf ∧ r = entity_index e.
Proof.
  unfold access. destruct (_values f) as [buf|]; [|done].
  repeat case_bool_decide; simpl; try done.
  case_decide; [|done]. intros [= <-]. by exists buf.
Qed.

Lemma init_dim_Ok fill f d f' :
  init_dim heap fill f d = Ok f' →
  ∃ m, _mesh f = Some m ∧
    f' = init_mesh_dim_size fill f m d (Mesh_size (heap m) d).
Proof.
  unfold init_dim. destruct (_mesh f) as [m|]; [|done].
  intros [= <-]. by exists m.
Qed.

Lemma init_dim_size_Ok fill f d n f' :
  init_dim_size heap fill f d n = Ok f' →
  ∃ m, _mesh f = Some m ∧
    f' = init_mesh_dim_size fill f m d (Mesh_size (heap m) d).
Proof.
  unfold init_dim_size. destruct (_mesh f) as [m|]; [|done].
  intros [= <-]. by exists m.
Qed.

Lemma assign_Ok f e x f' :
  assign f e x = Ok f' →
  ∃ buf, _values f = Some buf ∧ Some (entity_mesh e) = _mesh f ∧
    entity_dim e = _dim f ∧ entity_index e < _size f ∧
    entity_index e < length buf ∧
    f' = {| _values := Some (<[entity_index e := x]> buf); _mesh := _mesh f;
            _dim := _dim f; _size := _size f |}.
Proof.
  unfold assign. destruct (access f e) as [r| |] eqn:Hacc; simpl; [|done..].
  apply access_Ok in Hacc as (buf & Hbuf & ? & ? & ? & ? & ->).
  intros (buf' & Hbuf' & _ & ->)%store_Ok.
  rewrite Hbuf in Hbuf'. injection Hbuf' as <-. by exists buf.
Qed.

(** What a call that returns leaves behind, case by case. *)
Lemma step_Ok c f f' evs :
  step heap c f = Ok (f', evs) →
  (∃ fill m d n, f' = init_mesh_dim_size fill f m d n ∧
     evs = init_events f n ∧
     (sized_by_mesh c = true → n = Mesh_size (heap m) d)) ∨
  (∃ buf i x, _values f = Some buf ∧ i < _size f ∧ i < length buf ∧
     f' = {| _values := Some (<[i := x]> buf); _mesh := _mesh f;
             _dim := _dim f; _size := _size f |} ∧ evs = []).
Proof.
  destruct c as [fill m d n|fill m d|fill d|fill d n|i x|e x]; simpl.
  - intros [= <- <-]. left. by exists fill, m, d, n.
  - intros [= <- <-]. left. by eexists fill, m, d, _.
  - destruct (init_dim heap fill f d) as [g| |] eqn:Hi; simpl; [|done..].
    intros [= <- <-]. apply init_dim_Ok in Hi as (m & _ & ->).
    left. by eexists fill, m, d, _.
  - destruct (init_dim_size heap fill f d n) as [g| |] eqn:Hi; simpl;
      [|done..].
    intros [= <- <-]. apply init_dim_size_Ok in Hi as (m & _ & ->).
    left. by eexists fill, m, d, _.
  - destruct (set f i x) as [g| |] eqn:Hs; simpl; [|done..].
    intros [= <- <-]. apply set_Ok in Hs as (buf & ? & ? & ? & ->).
    right. by exists buf, i, x.
  - destruct (assign f e x) as [g| |] eqn:Hs; simpl; [|done..].
    intros [= <- <-].
    apply assign_Ok in Hs as (buf & ? & ? & ? & ? & ? & ->).
    right. by exists buf, (entity_index e), x.
Qed.

Lemma run_cons_Ok c prog f f' evs :
  run heap (c :: prog) f = Ok (f', evs) →
  ∃ f1 evs1 evs2, step heap c f = Ok (f1, evs1) ∧
    run heap prog f1 = Ok (f', evs2) ∧ evs = evs1 ++ evs2.
Proof.
  simpl. destruct (step heap c f) as [[f1 evs1]| |]; simpl; [|done..].
  destruct (run heap prog f1) as [[f2 evs2]| |] eqn:Hrun; simpl; [|done..].
  intros [= <- <-]. by exists f1, evs1, evs2.
Qed.

Lemma wf_step c f f' evs : wf f → step heap c f = Ok (f', evs) → wf f'.
Proof.
  intros Hwf [(fill & m & d & n & -> & _)
             |(buf & i & x & Hbuf & _ & _ & -> & _)]%step_Ok.
  - apply wf_init_mesh_dim_size.
  - unfold wf in *; simpl. rewrite Hbuf in Hwf. by rewrite length_insert.
Qed.

Lemma step_defined c f : wf f → step heap c f ≠ Undefined.
Proof.
  intros Hwf. destruct c as [fill m d n|fill m d|fill d|fill d n|i x|e x];
    simpl; try done.
  - unfold init_dim. by destruct (_mesh f).
  - unfold init_dim_size. by destruct (_mesh f).
  - pose proof (wf_set_defined f i x Hwf). by destruct (set f i x).
  - unfold assign, access, store, wf in *.
    destruct (_values f) as [buf|] eqn:Hbuf; [|done].
    repeat case_bool_decide; simpl; try done.
    rewrite decide_True by lia. simpl.
    rewrite array_set_lt by lia. done.
Qed.

Lemma run_defined prog f : wf f → run heap prog f ≠ Undefined.
Proof.
  revert f. induction prog as [|c prog IH]; intros f Hwf; simpl; [done|].
  pose proof (step_defined c f Hwf) as Hc.
  destruct (step heap c f) as [[f1 evs1]| |] eqn:Hs; simpl; [|done..].
  pose proof (IH f1 (wf_step _ _ _ _ Hwf Hs)) as Hr.
  by destruct (run heap prog f1) as [[f2 evs2]| |].
Qed.

Lemma access_load_defined f e : wf f → (access f e ≫= load f) ≠ Undefined.
Proof.
  unfold access, load, wf. destruct (_values f) as [buf|] eqn:Hbuf; [|done].
  intros Hlen. repeat case_bool_decide; simpl; try done.
  rewrite decide_True by lia. simpl. unfold array_get.
  destruct (buf !! entity_index e) eqn:Hl; [done|].
  apply lookup_ge_None in Hl. lia.
Qed.

End Returns.

(** ** The life of an object *)

Section Lifecycle.
Context {T : Type} (heap : addr → Mesh).
Implicit Types (f : MeshFunction T) (e : MeshEntity) (buf : list T).

Lemma reachable_step c f f' evs :
  reachable heap f → step heap c f = Ok (f', evs) → reachable heap f'.
Proof.
  intros Hf. destruct c as [fill m d n|fill m d|fill d|fill d n|i x|e x];
    simpl.
  - intros [= <- _]. by constructor.
  - intros [= <- _]. by constructor.
  - destruct (init_dim heap fill f d) as [g| |] eqn:Hi; simpl; [|done..].
    intros [= <- _]. by eapply reach_init_dim.
  - destruct (init_dim_size heap fill f d n) as [g| |] eqn:Hi; simpl;
      [|done..].
    intros [= <- _]. by eapply reach_init_dim_size.
  - destruct (set f i x) as [g| |] eqn:Hs; simpl; [|done..].
    intros [= <- _]. by eapply reach_set.
  - unfold assign. destruct (access f e) as [r| |] eqn:Ha; simpl; [|done..].
    destruct (store f r x) as [g| |] eqn:Hs; simpl; [|done..].
    intros [= <- _]. by eapply reach_store.
Qed.

Lemma reachable_run prog f f' evs :
  reachable heap f → run heap prog f = Ok (f', evs) → reachable heap f'.
Proof.
  revert f evs. induction prog as [|c prog IH]; intros f evs Hf.
  - by intros [= <- _].
  - intros (f1 & evs1 & evs2 & Hs & Hr & _)%run_cons_Ok.
    eapply IH; [|done]. by eapply reachable_step.
Qed.

Lemma reachable_uninitialized f :
  reachable heap f → _values f = None →
  f = MeshFunction_empty ∨ ∃ m, f = MeshFunction_on m.
Proof.
  induction 1 as [|m|fill f m d n _ _|fill f m d _ _
                  |fill f d f' _ _ Hi|fill f d n f' _ _ Hi
                  |f i x f' _ _ Hs|f e r x f' _ _ _ Hs]; try done.
  - by left.
  - right. by exists m.
  - by apply init_dim_Ok in Hi as (m & _ & ->).
  - by apply init_dim_size_Ok in Hi as (m & _ & ->).
  - by apply set_Ok in Hs as (buf & _ & _ & _ & ->).
  - by apply store_Ok in Hs as (buf & _ & _ & ->).
Qed.

(** X1: in every object a program can build, the array that [values()]
    returns, when it is not null, has exactly [size()] elements. *)
Theorem reachable_values_length f buf
    (Hreach : reachable heap f) (Hbuf : values f = Some buf) :
  length buf = size f.
Proof.
  apply reachable_wf in Hreach. unfold wf, values, size in *.
  by rewrite Hbuf in Hreach.
Qed.

(** X2: on an object a program can build, no sequence of [init], [set]
    and [f(e) = x] calls, no [get] and no read through [operator()] ever
    touches memory outside the array: each one returns or stops at an
    assertion. *)
Theorem reachable_memory_safe f prog e (Hreach : reachable heap f) :
  run heap prog f ≠ Undefined ∧
  get f e ≠ Undefined ∧
  (access f e ≫= load f) ≠ Undefined.
Proof.
  apply reachable_wf in Hreach. split; [|split].
  - by apply run_defined.
  - by apply wf_get_defined.
  - by apply access_load_defined.
Qed.

(** X3: an object whose array is still null is exactly as one of the two
    constructors made it, with [dim()] and [size()] zero: no call that
    returns leaves the array null. *)
Theorem uninitialized_as_constructed f
    (Hreach : reachable heap f) (Hnull : values f = None) :
  (f = MeshFunction_empty ∨ ∃ m, f = MeshFunction_on m) ∧
  dim f = 0 ∧ size f = 0.
Proof.
  destruct (reachable_uninitialized f Hreach Hnull) as [->|[m ->]]; eauto.
Qed.

(** X4: on an object a program can build, [mesh()] stops the program only
    on the object made by [MeshFunction()]; once [init] has returned,
    [mesh()] returns the bound mesh. *)
Theorem mesh_fails_only_unbound f (Hreach : reachable heap f) :
  (mesh f = Fatal NoMeshBound ↔ f = MeshFunction_empty) ∧
  (initialized f → ∃ m, mesh f = Ok m ∧ _mesh f = Some m).
Proof.
  split.
  - split; [|by intros ->].
    unfold mesh. destruct (_mesh f) eqn:Hm; [done|].
    intros _. by eapply reachable_no_mesh.
  - intros [buf Hbuf]. unfold mesh. destruct (_mesh f) as [m|] eqn:Hm.
    + by exists m.
    + rewrite (reachable_no_mesh heap f Hreach Hm) in Hbuf. done.
Qed.

Lemma replay_app live evs1 evs2 :
  replay live (evs1 ++ evs2) = replay live evs1 ≫= λ l, replay l evs2.
Proof.
  revert live. induction evs1 as [|[n|] evs1 IH]; intros live; simpl.
  - done.
  - destruct live; [done|]. apply IH.
  - destruct live; [|done]. apply IH.
Qed.

Lemma replay_release f : replay (owns_array f) (release f) = Some false.
Proof. unfold owns_array, release. by destruct (_values f). Qed.

Lemma replay_step c f f' evs :
  step heap c f = Ok (f', evs) →
  replay (owns_array f) evs = Some (owns_array f').
Proof.
  intros [(fill & m & d & n & -> & -> & _)
         |(buf & i & x & Hbuf & _ & _ & -> & ->)]%step_Ok.
  - unfold init_events. rewrite replay_app, replay_release. done.
  - unfold owns_array; simpl. by rewrite Hbuf.
Qed.

Lemma replay_run prog f f' evs :
  run heap prog f = Ok (f', evs) →
  replay (owns_array f) evs = Some (owns_array f').
Proof.
  revert f evs. induction prog as [|c prog IH]; intros f evs.
  - by intros [= <- <-].
  - intros (f1 & evs1 & evs2 & Hs & Hr & ->)%run_cons_Ok.
    rewrite replay_app, (replay_step _ _ _ _ Hs). simpl. by apply IH.
Qed.

(** X5: over any sequence of calls that returns, followed by the
    destructor, every [new T[n]] happens while no array is owned and every
    [delete []] while one is, and in the end none is owned: [init] never
    loses the old array and the destructor frees the last one. *)
Theorem storage_balanced prog f f' evs
    (Hrun : run heap prog f = Ok (f', evs)) :
  replay (owns_array f) (evs ++ destructor f') = Some false.
Proof.
  rewrite replay_app, (replay_run _ _ _ _ Hrun). simpl.
  apply replay_release.
Qed.

Lemma matches_mesh_step c f f' evs :
  sized_by_mesh c = true → matches_mesh heap f →
  step heap c f = Ok (f', evs) → matches_mesh heap f'.
Proof.
  intros Hc Hf [(fill & m & d & n & -> & _ & Hn)
               |(buf & i & x & Hbuf & _ & _ & -> & _)]%step_Ok.
  - unfold matches_mesh; simpl. exists m. auto.
  - unfold matches_mesh in *; simpl. by rewrite Hbuf in Hf.
Qed.

(** X6: as long as the overload [init(mesh, dim, size)] is not called,
    [size()] stays the number of entities of dimension [dim()] of the
    bound mesh, and the array has that many elements, through any sequence
    of the other calls. *)
Theorem size_matches_mesh prog f f' evs buf
    (Hcalls : forallb sized_by_mesh prog = true)
    (Hwf : wf f) (Hstart : matches_mesh heap f)
    (Hrun : run heap prog f = Ok (f', evs))
    (Hbuf : values f' = Some buf) :
  ∃ m, mesh f' = Ok m ∧
    size f' = Mesh_size (heap m) (dim f') ∧
    length buf = Mesh_size (heap m) (dim f').
Proof.
  assert (Hinv : wf f' ∧ matches_mesh heap f').
  { clear Hbuf. revert f evs Hwf Hstart Hrun.
    induction prog as [|c prog IH]; intros f evs Hwf Hstart.
    - by intros [= <- _].
    - apply andb_prop in Hcalls as [Hc Hprog].
      intros (f1 & evs1 & evs2 & Hs & Hr & _)%run_cons_Ok.
      eapply IH; [done| | |done].
      + by eapply wf_step.
      + by eapply matches_mesh_step. }
  destruct Hinv as [Hwf' Hm]. unfold wf, matches_mesh, values in *.
  rewrite Hbuf in Hwf', Hm. destruct Hm as (m & Hmesh & Hsize).
  exists m. unfold mesh, size, dim. rewrite Hmesh.
  split; [done|]. split; [done|]. by rewrite Hwf'.
Qed.

End Lifecycle.

(** ** How the calls compose *)

Section Composition.
Context {T : Type} (heap : addr → Mesh).
Implicit Types (f : MeshFunction T) (e : MeshEntity) (buf : list T).

(** [set], case by case, when the array has [_size] slots. *)
Lemma set_cases f i v :
  wf f →
  set f i v =
    match _values f with
    | None => Fatal UseBeforeInit
    | Some buf =>
        if decide (i < _size f)
        then Ok {| _values := Some (<[i := v]> buf); _mesh := _mesh f;
                   _dim := _dim f; _size := _size f |}
        else Fatal IndexOutOfRange
    end.
Proof.
  unfold wf, set. destruct (_values f) as [buf|]; [|done]. intros Hlen.
  case_bool_decide; case_decide; try done. simpl.
  rewrite array_set_lt by lia. done.
Qed.

(** X7: [get(e)] and a read through the reference that [operator()]
    returns for [e] agree: the same value when the checks pass, the same
    error when one fails. *)
Theorem get_is_access_then_load f e (Hwf : wf f) :
  get f e = (access f e ≫= load f).
Proof.
  unfold get, access, load, wf in *.
  destruct (_values f) as [buf|] eqn:Hbuf; [|done].
  repeat case_bool_decide; simpl; try done.
  rewrite decide_True by lia. done.
Qed.

(** X8: when [operator()] accepts the entity, the assignment [f(e) = v]
    does what [set(e.index(), v)] does, and [get(e)] then returns [v]. *)
Theorem assign_is_set f e r v
    (Hwf : wf f) (Hacc : access f e = Ok r) :
  assign f e v = set f (entity_index e) v ∧
  ∃ f', assign f e v = Ok f' ∧ get f' e = Ok v.
Proof.
  pose proof Hacc as (buf & Hbuf & Hm & Hd & Hi & Hlen & ->)%access_Ok.
  destruct (get_after_set f buf e v Hwf Hbuf Hm Hd Hi) as (f' & Hset & Hget).
  assert (Heq : assign f e v = set f (entity_index e) v).
  { unfold assign. rewrite Hacc. simpl.
    unfold store, set. rewrite Hbuf.
    rewrite bool_decide_eq_true_2 by done. done. }
  split; [done|]. exists f'. by rewrite Heq.
Qed.

(** X9: of two [set] calls on the same index the second one decides:
    [set(i, v); set(i, w)] leaves what [set(i, w)] alone leaves, and
    stops where it stops. *)
Theorem set_twice f i v w (Hwf : wf f) :
  (set f i v ≫= λ f', set f' i w) = set f i w.
Proof.
  rewrite (set_cases f i v Hwf), (set_cases f i w Hwf).
  unfold wf in Hwf. destruct (_values f) as [buf|]; [|done].
  case_decide; [|done]. simpl.
  rewrite set_cases by (unfold wf; simpl; by rewrite length_insert).
  simpl. rewrite decide_True by done. by rewrite list_insert_insert_eq.
Qed.

(** X10: [set] calls on two different indices can be swapped: the same
    object results, or the same error. *)
Theorem set_commute f i j v w (Hwf : wf f) (Hij : i ≠ j) :
  (set f i v ≫= λ f', set f' j w) = (set f j w ≫= λ f', set f' i v).
Proof.
  rewrite (set_cases f i v Hwf), (set_cases f j w Hwf).
  unfold wf in Hwf. destruct (_values f) as [buf|]; [|done].
  destruct (decide (i < _size f)), (decide (j < _size f)); simpl;
    rewrite ?set_cases by (unfold wf; simpl; by rewrite length_insert);
    simpl; rewrite ?decide_True, ?decide_False by done; try done.
  by rewrite list_insert_insert_ne.
Qed.

(** X11: storing with [set] the value that [get(e)] has just returned
    changes nothing. *)
Theorem set_of_get f e v (Hget : get f e = Ok v) :
  set f (entity_index e) v = Ok f.
Proof.
  unfold get, set in *. destruct (_values f) as [buf|] eqn:Hbuf; [|done].
  repeat case_bool_decide; simpl in *; try done.
  unfold array_get in Hget.
  destruct (buf !! entity_index e) as [x|] eqn:Hx; [|done].
  injection Hget as ->.
  rewrite array_set_lt by (by eapply lookup_lt_Some). simpl.
  rewrite list_insert_id by done. rewrite <- Hbuf. by destruct f.
Qed.

(** X12: right after [init(mesh, dim, size)], [get] on an entity of that
    mesh and dimension returns the default-initialised content of its
    slot when the entity's index is below the size given to [init], and
    stops with the index error otherwise, also for an entity that the
    mesh does have. *)
Theorem get_after_init fill f m d n e
    (Hmesh : entity_mesh e = m) (Hdim : entity_dim e = d) :
  get (init_mesh_dim_size fill f m d n) e =
    if decide (entity_index e < n) then Ok (fill (entity_index e))
    else Fatal IndexOutOfRange.
Proof.
  unfold get; simpl. rewrite Hmesh, Hdim.
  repeat case_bool_decide; case_decide; simpl; try done.
  unfold array_get. by rewrite lookup_new_array.
Qed.

End Composition.

(** ** What a call leaves alone *)

Section Frame.
Context {T : Type} (heap : addr → Mesh).
Implicit Types (f : MeshFunction T) (e : MeshEntity) (buf : list T).

Lemma keeps_mesh_step c f f' evs :
  keeps_mesh c = true → step heap c f = Ok (f', evs) → _mesh f' = _mesh f.
Proof.
  destruct c as [fill m d n|fill m d|fill d|fill d n|i x|e x]; simpl;
    try done; intros _.
  - destruct (init_dim heap fill f d) as [g| |] eqn:Hi; simpl; [|done..].
    intros [= <- _]. by apply init_dim_Ok in Hi as (m & -> & ->).
  - destruct (init_dim_size heap fill f d n) as [g| |] eqn:Hi; simpl;
      [|done..].
    intros [= <- _]. by apply init_dim_size_Ok in Hi as (m & -> & ->).
  - destruct (set f i x) as [g| |] eqn:Hs; simpl; [|done..].
    intros [= <- _]. by apply set_Ok in Hs as (buf & _ & _ & _ & ->).
  - destruct (assign f e x) as [g| |] eqn:Hs; simpl; [|done..].
    intros [= <- _].
    by apply assign_Ok in Hs as (buf & _ & _ & _ & _ & _ & ->).
Qed.

(** X13: only [init(mesh, dim)] and [init(mesh, dim, size)] change the
    bound mesh: after any sequence of the other calls, [init(dim)] and
    [init(dim, size)] included, the object is bound to the mesh it was
    bound to before. *)
Theorem mesh_kept prog f f' evs
    (Hcalls : forallb keeps_mesh prog = true)
    (Hrun : run heap prog f = Ok (f', evs)) :
  _mesh f' = _mesh f ∧ mesh f' = mesh f.
Proof.
  assert (Hm : _mesh f' = _mesh f).
  { revert f evs Hrun. induction prog as [|c prog IH]; intros f evs.
    - by intros [= <- _].
    - apply andb_prop in Hcalls as [Hc Hprog].
      intros (f1 & evs1 & evs2 & Hs & Hr & _)%run_cons_Ok.
      rewrite (IH Hprog _ _ Hr). by eapply keeps_mesh_step. }
  split; [done|]. unfold mesh. by rewrite Hm.
Qed.

Lemma writes_slot_step c f f' evs :
  writes_slot c = true → step heap c f = Ok (f', evs) →
  _mesh f' = _mesh f ∧ _dim f' = _dim f ∧ _size f' = _size f ∧ evs = [] ∧
  ∃ buf buf', _values f = Some buf ∧ _values f' = Some buf' ∧
    length buf' = length buf.
Proof.
  destruct c as [fill m d n|fill m d|fill d|fill d n|i x|e x]; simpl;
    try done; intros _.
  - destruct (set f i x) as [g| |] eqn:Hs; simpl; [|done..].
    intros [= <- <-]. apply set_Ok in Hs as (buf & Hbuf & _ & _ & ->).
    repeat split; simpl. eexists buf, _. by rewrite length_insert.
  - destruct (assign f e x) as [g| |] eqn:Hs; simpl; [|done..].
    intros [= <- <-].
    apply assign_Ok in Hs as (buf & Hbuf & _ & _ & _ & _ & ->).
    repeat split; simpl. eexists buf, _. by rewrite length_insert.
Qed.

(** X14: a sequence of [set] calls and assignments through [operator()]
    that returns leaves the bound mesh, [dim()] and [size()] as they were,
    takes and frees no array, and keeps the number of elements of the
    array. *)
Theorem writes_keep_shape prog f f' evs
    (Hcalls : forallb writes_slot prog = true)
    (Hrun : run heap prog f = Ok (f', evs)) :
  mesh f' = mesh f ∧ dim f' = dim f ∧ size f' = size f ∧ evs = [] ∧
  length <$> values f' = length <$> values f.
Proof.
  unfold mesh, dim, size, values.
  revert f evs Hrun. induction prog as [|c prog IH]; intros f evs.
  - by intros [= <- <-].
  - apply andb_prop in Hcalls as [Hc Hprog].
    intros (f1 & evs1 & evs2 & Hs & Hr & ->)%run_cons_Ok.
    destruct (IH Hprog _ _ Hr) as (-> & -> & -> & -> & ->).
    destruct (writes_slot_step _ _ _ _ Hc Hs)
      as (-> & -> & -> & -> & buf & buf' & -> & -> & Hlen).
    simpl. by rewrite Hlen.
Qed.

End Frame.

(** ** The further theorems on the strip *)

(** Calls and runs on the strip's cell function. *)
Lemma get_cells0_zero : get cells0 (cell 3) = Ok 0%Z.
Proof. reflexivity. Defined.

Lemma access_cells0 : access cells0 (cell 3) = Ok 3.
Proof. reflexivity. Defined.

Lemma run_demo_prog :
  run demo_heap demo_prog MeshFunction_empty
    = Ok ({| _values := Some [0; 0; 0; 0; 0; 0; 0]%Z; _mesh := Some 1;
             _dim := 0; _size := 7 |}, [New 5; Delete; New 7]).
Proof. reflexivity. Defined.

Lemma run_writes :
  run demo_heap [Set_value 3 42%Z; Assign (cell 1) 7%Z] cells0
    = Ok ({| _values := Some [0; 7; 0; 42; 0]%Z; _mesh := Some 1;
             _dim := 2; _size := 5 |}, []).
Proof. reflexivity. Defined.

Lemma run_reinit :
  run demo_heap [Set_value 3 42%Z; Init_dim_size zeros 1 2] cells0
    = Ok ({| _values := Some (replicate 11 0%Z); _mesh := Some 1;
             _dim := 1; _size := 11 |}, [Delete; New 11]).
Proof. reflexivity. Defined.

(** Witness of X1. *)
Lemma reachable_values_length_witness :
  values cells0 = Some [0; 0; 0; 0; 0]%Z ∧
  length [0; 0; 0; 0; 0]%Z = size cells0.
Proof.
  split; [reflexivity|].
  apply (reachable_values_length demo_heap cells0 _ reachable_cells0).
  reflexivity.
Defined.

(** Witness of X2. *)
Lemma reachable_memory_safe_witness :
  run demo_heap demo_prog cells0 ≠ Undefined ∧
  get cells0 (cell 9) ≠ Undefined ∧
  (access cells0 (cell 9) ≫= load cells0) ≠ Undefined.
Proof.
  apply (reachable_memory_safe demo_heap cells0 demo_prog (cell 9)
           reachable_cells0).
Defined.

(** Witness of X3. *)
Lemma uninitialized_as_constructed_witness :
  values (MeshFunction_on (T:=Z) 1) = None ∧
  (MeshFunction_on (T:=Z) 1 = MeshFunction_empty ∨
   ∃ m, MeshFunction_on (T:=Z) 1 = MeshFunction_on m) ∧
  dim (MeshFunction_on (T:=Z) 1) = 0 ∧ size (MeshFunction_on (T:=Z) 1) = 0.
Proof.
  split; [reflexivity|].
  apply (uninitialized_as_constructed demo_heap (MeshFunction_on 1)
           (reach_on demo_heap 1)).
  reflexivity.
Defined.

(** Witness of X4. *)
Lemma mesh_fails_only_unbound_witness :
  (mesh cells0 = Fatal NoMeshBound ↔ cells0 = MeshFunction_empty) ∧
  (initialized cells0 → ∃ m, mesh cells0 = Ok m ∧ _mesh cells0 = Some m).
Proof. apply (mesh_fails_only_unbound demo_heap cells0 reachable_cells0). Defined.

(** Witness of X5: two arrays are taken and two are freed. *)
Lemma storage_balanced_witness :
  replay false ([New 5; Delete; New 7] ++ [Delete]) = Some false.
Proof.
  apply (storage_balanced demo_heap demo_prog MeshFunction_empty _ _
           run_demo_prog).
Defined.

(** Witness of X6. *)
Lemma size_matches_mesh_witness :
  forallb sized_by_mesh demo_prog = true ∧
  ∃ m, mesh {| _values := Some [0; 0; 0; 0; 0; 0; 0]%Z; _mesh := Some 1;
               _dim := 0; _size := 7 |} = Ok m ∧
    7 = Mesh_size (demo_heap m) 0 ∧
    length [0; 0; 0; 0; 0; 0; 0]%Z = Mesh_size (demo_heap m) 0.
Proof.
  split; [reflexivity|].
  apply (size_matches_mesh demo_heap demo_prog MeshFunction_empty _ _ _
           eq_refl I I run_demo_prog eq_refl).
Defined.

(** Witness of X7. *)
Lemma get_is_access_then_load_witness :
  get cells0 (cell 3) = (access cells0 (cell 3) ≫= load cells0).
Proof. apply (get_is_access_then_load cells0 (cell 3) wf_cells0). Defined.

(** Witness of X8. *)
Lemma assign_is_set_witness :
  assign cells0 (cell 3) 42%Z = set cells0 3 42%Z ∧
  ∃ f', assign cells0 (cell 3) 42%Z = Ok f' ∧ get f' (cell 3) = Ok 42%Z.
Proof.
  apply (assign_is_set cells0 (cell 3) 3 42%Z wf_cells0 access_cells0).
Defined.

(** Witness of X9. *)
Lemma set_twice_witness :
  (set cells0 3 42%Z ≫= λ f', set f' 3 7%Z) = set cells0 3 7%Z.
Proof. apply (set_twice cells0 3 42%Z 7%Z wf_cells0). Defined.

(** Witness of X10. *)
Lemma set_commute_witness :
  (set cells0 3 42%Z ≫= λ f', set f' 1 7%Z)
    = (set cells0 1 7%Z ≫= λ f', set f' 3 42%Z).
Proof.
  apply (set_commute cells0 3 1 42%Z 7%Z wf_cells0). lia.
Defined.

(** Witness of X11. *)
Lemma set_of_get_witness : set cells0 3 0%Z = Ok cells0.
Proof. apply (set_of_get cells0 (cell 3) 0%Z get_cells0_zero). Defined.

(** Witness of X12: the strip has 5 cells and 3 slots are asked for, so
    cell 1 is read and cell 4, which the strip has, is refused. *)
Lemma get_after_init_witness :
  get (init_mesh_dim_size zeros MeshFunction_empty 1 2 3) (cell 1) = Ok 0%Z ∧
  get (init_mesh_dim_size zeros MeshFunction_empty 1 2 3) (cell 4)
    = Fatal IndexOutOfRange.
Proof.
  split.
  - apply (get_after_init zeros MeshFunction_empty 1 2 3 (cell 1)
             eq_refl eq_refl).
  - apply (get_after_init zeros MeshFunction_empty 1 2 3 (cell 4)
             eq_refl eq_refl).
Defined.

(** Witness of X13: [init(1, 2)] takes the edges of the same strip. *)
Lemma mesh_kept_witness :
  _mesh {| _values := Some (replicate 11 0%Z); _mesh := Some 1;
           _dim := 1; _size := 11 |} = _mesh cells0 ∧
  mesh {| _values := Some (replicate 11 0%Z); _mesh := Some 1;
          _dim := 1; _size := 11 |} = mesh cells0.
Proof.
  apply (mesh_kept demo_heap
           [Set_value 3 42%Z; Init_dim_size zeros 1 2] cells0 _ _
           eq_refl run_reinit).
Defined.

(** Witness of X14. *)
Lemma writes_keep_shape_witness :
  let f' := {| _values := Some [0; 7; 0; 42; 0]%Z; _mesh := Some 1;
               _dim := 2; _size := 5 |} in
  mesh f' = mesh cells0 ∧ dim f' = dim cells0 ∧ size f' = size cells0 ∧
  @nil event = [] ∧ length <$> values f' = length <$> values cells0.
Proof.
  apply (writes_keep_shape demo_heap
           [Set_value 3 42%Z; Assign (cell 1) 7%Z] cells0 _ _
           eq_refl run_writes).
Defined.
